(** * SQUADS ownership primitives: [basic_linked_ptr] and [basic_auto_ptr]

    A shallow embedding of [include/core/linked_ptr.hpp] and
    [include/core/auto_ptr.hpp].  Handles are C++ objects with an address;
    both classes compare and follow addresses, so the embedding keeps an
    explicit store of handle objects indexed by their address and every
    member function receives the address of [*this]. *)

From stdpp Require Import gmap list fin_maps.
From Stdlib Require Import ZArith Lia.

Local Open Scope N_scope.

(** Machine addresses.  [nullptr] is address zero. *)
Abbreviation addr := N (only parsing).
Definition nullptr : N := 0.

(** ** Computations over a program state

    Member functions are run as state transformers that may fail.  [None]
    stands for undefined behaviour (an access through an address at which
    no object is alive) or, for the loops, for running out of fuel. *)
Definition M (S A : Type) : Type := S -> option (A * S).

Definition ret {S A} (a : A) : M S A := fun s => Some (a, s).
Definition bind {S A B} (c : M S A) (k : A -> M S B) : M S B :=
  fun s => match c s with
           | Some (a, s') => k a s'
           | None => None
           end.
Definition fault {S A} : M S A := fun _ => None.

Declare Scope exec_scope.
Delimit Scope exec_scope with exec.
Notation "x <- c ;; k" := (bind c (fun x => k))
  (at level 100, c at next level, k at level 200, right associativity)
  : exec_scope.
Notation "c ;; k" := (bind c (fun _ => k))
  (at level 100, k at level 200, right associativity) : exec_scope.
Local Open Scope exec_scope.

(** ** The circular-list shared pointer *)
Module LinkedPtr.

(** [struct basic_linked_ptr_node { Prev; Next; }] together with the
    [m_pValue] member that [basic_linked_ptr<T>] adds to it. *)
Record node := Node { Prev : addr; Next : addr; m_pValue : addr }.

(** The program state: the handle objects that are alive, by address, and
    the addresses handed to the [delete] operator so far (most recent
    first; [delete] on a null address does nothing and is not recorded). *)
Record mem := Mem { nodes : gmap N node; deleted : list N }.

(** Field reads and writes through a node address. *)
Definition load (a : addr) : M mem node :=
  fun m => match nodes m !! a with
           | Some n => Some (n, m)
           | None => None
           end.

Definition store (a : addr) (n : node) : M mem unit :=
  fun m => match nodes m !! a with
           | Some _ => Some (tt, Mem (<[a := n]> (nodes m)) (deleted m))
           | None => None
           end.

Definition get_Prev (a : addr) : M mem addr := n <- load a ;; ret (Prev n).
Definition get_Next (a : addr) : M mem addr := n <- load a ;; ret (Next n).
Definition get_value (a : addr) : M mem addr := n <- load a ;; ret (m_pValue n).

Definition set_Prev (a v : addr) : M mem unit :=
  n <- load a ;; store a (Node v (Next n) (m_pValue n)).
Definition set_Next (a v : addr) : M mem unit :=
  n <- load a ;; store a (Node (Prev n) v (m_pValue n)).
Definition set_value (a v : addr) : M mem unit :=
  n <- load a ;; store a (Node (Prev n) (Next n) v).

(** Storage for a new handle object at [this]: the address must be
    non-null and no live handle may occupy it.  The base sub-object has no
    constructor, so [Prev] and [Next] start indeterminate (written here as
    [nullptr]); every constructor assigns both before they are read. *)
Definition alloc (this v : addr) : M mem unit :=
  fun m => if decide (this = nullptr) then None else
           match nodes m !! this with
           | Some _ => None
           | None => Some (tt, Mem (<[this := Node nullptr nullptr v]> (nodes m))
                                   (deleted m))
           end.

(** The storage of a destroyed handle goes away. *)
Definition free (this : addr) : M mem unit :=
  fun m => match nodes m !! this with
           | Some _ => Some (tt, Mem (delete this (nodes m)) (deleted m))
           | None => None
           end.

(** [delete p]: a no-op on the null address. *)
Definition delete_ (p : addr) : M mem unit :=
  fun m => if decide (p = nullptr) then Some (tt, m)
           else Some (tt, Mem (nodes m) (p :: deleted m)).

(** [Prev = Next = this;] assigns [Next] first. *)
Definition self_link (this : addr) : M mem unit :=
  set_Next this this ;; set_Prev this this.

(** [basic_linked_ptr()] *)
Definition ctor_default (this : addr) : M mem unit :=
  alloc this nullptr ;; self_link this.

(** [explicit basic_linked_ptr(pointer pValue)] *)
Definition ctor_ptr (this pValue : addr) : M mem unit :=
  alloc this pValue ;; self_link this.

(** [void link(const basic_linked_ptr<U>& pOther)], repaired.  As written,
    the first statement reads [pOther.mpNext], a member that neither
    [basic_linked_ptr_node] nor [basic_linked_ptr] declares, so [link] is
    ill-formed once instantiated and, with it, every function whose body
    calls it: both copy constructors and both handle [operator=].  The
    definition below is the function with that one token replaced by
    [Next], the reading most favourable to the code; the other three
    statements are as written.  What is proved through it is a fact about
    the repaired function, not about a program the header can build. *)
Definition link (this pOther : addr) : M mem unit :=
  n <- get_Next pOther ;;
  set_Next this n ;;
  set_Prev this this ;;
  set_Prev this pOther ;;
  set_Next pOther this.

(** [basic_linked_ptr(const basic_linked_ptr& _pPtr)] (and its converting
    twin, which has the same body), with the repaired [link]: as written
    the constructor cannot be instantiated, whichever branch would run. *)
Definition ctor_copy (this _pPtr : addr) : M mem unit :=
  v <- get_value _pPtr ;;
  alloc this v ;;
  if decide (v = nullptr) then self_link this else link this _pPtr.

(** [pointer get()] *)
Definition get (this : addr) : M mem addr := get_value this.

(** [bool unique()] *)
Definition unique (this : addr) : M mem bool :=
  n <- get_Next this ;; ret (bool_decide (n = this)).

(** The largest [int], for the 32-bit [int] of the platforms the library
    is built for. *)
Definition INT_MAX : Z := 2147483647.

(** [int count() const].  The [for] loop is unrolled [fuel] times; running
    out of fuel is [None].  The counter is an [int]: [++_count] at
    [INT_MAX] is a signed overflow, which is undefined and gives no
    result. *)
Fixpoint count_loop (fuel : nat) (this _pCurrent : addr) (_count : Z) : M mem Z :=
  match fuel with
  | O => fault
  | S fuel' =>
      n <- get_Next _pCurrent ;;
      if decide (n = this) then ret _count
      else if decide (_count = INT_MAX) then fault
      else count_loop fuel' this n (_count + 1)%Z
  end.

Definition count (fuel : nat) (this : addr) : M mem Z :=
  count_loop fuel this this 1%Z.

(** [void reset(U* pValue)] *)
Definition reset (this pValue : addr) : M mem unit :=
  v <- get_value this ;;
  if decide (pValue = v) then ret tt else
    u <- unique this ;;
    (if u then delete_ v
     else
       (p <- get_Prev this ;; n <- get_Next this ;; set_Next p n) ;;
       (n <- get_Next this ;; p <- get_Prev this ;; set_Prev n p) ;;
       self_link this) ;;
    set_value this pValue.

(** [~basic_linked_ptr() { reset(); }], repaired, after which the object
    is gone.  As written, [reset()] is [reset(nullptr)], and the only
    one-argument [reset] is the template [reset(U* pValue)], whose [U]
    cannot be deduced from [nullptr]: the destructor is ill-formed once
    instantiated.  The definition below takes the call as [reset] with a
    null pointer value, the reading most favourable to the code.  What is
    proved through it is a fact about the repaired destructor. *)
Definition dtor (this : addr) : M mem unit :=
  reset this nullptr ;; free this.

(** [pointer detach()]: the body of the [do ... while] loop runs once per
    unit of fuel. *)
Fixpoint detach_loop (fuel : nat) (this _p : addr) : M mem unit :=
  match fuel with
  | O => fault
  | S fuel' =>
      _pNext <- get_Next _p ;;
      set_value _p nullptr ;;
      set_Prev _p _p ;;
      set_Next _p _p ;;
      if decide (_pNext = this) then ret tt
      else detach_loop fuel' this _pNext
  end.

Definition detach (fuel : nat) (this : addr) : M mem addr :=
  _pValue <- get_value this ;;
  detach_loop fuel this this ;;
  ret _pValue.

(** [void force_delete()] *)
Definition force_delete (fuel : nat) (this : addr) : M mem unit :=
  _pValue <- detach fuel this ;; delete_ _pValue.

(** [basic_linked_ptr& operator=(const basic_linked_ptr& _pPtr)] (and its
    converting twin), with the repaired [link]: as written the operator
    cannot be instantiated, whichever branch would run. *)
Definition assign (this _pPtr : addr) : M mem unit :=
  ov <- get_value _pPtr ;;
  v <- get_value this ;;
  if decide (ov = v) then ret tt else
    reset this ov ;;
    ov' <- get_value _pPtr ;;
    if decide (ov' = nullptr) then ret tt else link this _pPtr.

(** [basic_linked_ptr& operator=(U* pValue)] *)
Definition assign_ptr (this pValue : addr) : M mem unit := reset this pValue.

(** The state before any handle exists. *)
Definition empty_mem : mem := Mem ∅ [].

(** The doubly-linked-cycle condition at one live node [n]:
    [n.Next.Prev == n] and [n.Prev.Next == n]. *)
Definition linked_ok (m : mem) (n : addr) : bool :=
  match nodes m !! n with
  | Some nd =>
      match nodes m !! Next nd, nodes m !! Prev nd with
      | Some nx, Some pv =>
          bool_decide (Prev nx = n) && bool_decide (Next pv = n)
      | _, _ => false
      end
  | None => false
  end.

(** The addresses met by following [Next] from [n], [n] included, for at
    most [fuel] links and stopping when the walk is back at [n]. *)
Fixpoint next_walk (fuel : nat) (m : mem) (n cur : addr) : list addr :=
  match fuel with
  | O => []
  | S fuel' =>
      cur :: match nodes m !! cur with
             | Some nd =>
                 if decide (Next nd = n) then [] else next_walk fuel' m n (Next nd)
             | None => []
             end
  end.

(** The live handles that hold address [v]. *)
Definition aliases (m : mem) (v : addr) : gset N :=
  dom (filter (fun kv => m_pValue kv.2 = v) (nodes m)).

(** [operator bool ()]: [m_pValue != 0]. *)
Definition to_bool (this : addr) : M mem bool :=
  v <- get_value this ;; ret (negb (bool_decide (v = nullptr))).

(** [chain ns l last]: the handles of [l] are alive in [ns] and each one's
    [Next] link is the following element of [l], the last one's being
    [last].  [chain ns (a :: l) a] says that following [Next] from [a]
    runs through [l] and comes back to [a]. *)
Fixpoint chain (ns : gmap N node) (l : list N) (last : N) : bool :=
  match l with
  | [] => true
  | x :: l' =>
      match ns !! x with
      | Some nd => bool_decide (Next nd = hd last l') && chain ns l' last
      | None => false
      end
  end.

(** The store in which every handle of [l] is null and its own singleton
    cycle, the other handles being as in [ns]. *)
Definition nulled (l : list N) (ns : gmap N node) : gmap N node :=
  foldr (fun x acc => <[x := Node x x nullptr]> acc) ns l.

End LinkedPtr.

(** ** The intrusive reference-counted pointer *)
Module AutoPtr.

(** The member functions a handle invokes on its pointee. *)
Inductive call := Duplicate (a : addr) | Release (a : addr).

#[global] Instance call_eq_dec : EqDecision call.
Proof. solve_decision. Defined.

(** The program state: the [m_ptr] member of every live handle, by the
    handle's address; the stored count of every live pointee, by the
    pointee's address; and the pointee calls made so far, most recent
    first. *)
Record world := World {
  handles : gmap N N;
  refs : gmap N Z;
  calls : list call
}.

(** Modelled from the spec: the pointee type [T] is a template parameter
    and its [duplicate()] is not part of the sources; it "increments an
    internally-stored count and returns the same address". *)
Definition pointee_duplicate (a : addr) : M world addr :=
  fun w => match refs w !! a with
           | Some c => Some (a, World (handles w) (<[a := (c + 1)%Z]> (refs w))
                                      (Duplicate a :: calls w))
           | None => None
           end.

(** Modelled from the spec: the pointee's [release()] is not part of the
    sources either; it "decrements it and destroys the object when the
    count reaches zero". *)
Definition pointee_release (a : addr) : M world unit :=
  fun w => match refs w !! a with
           | Some c =>
               Some (tt, World (handles w)
                               (if decide ((c - 1)%Z = 0%Z) then delete a (refs w)
                                else <[a := (c - 1)%Z]> (refs w))
                               (Release a :: calls w))
           | None => None
           end.

(** Reading and writing [m_ptr] through a handle address. *)
Definition get_ptr (this : addr) : M world addr :=
  fun w => match handles w !! this with
           | Some p => Some (p, w)
           | None => None
           end.

Definition set_ptr (this p : addr) : M world unit :=
  fun w => match handles w !! this with
           | Some _ => Some (tt, World (<[this := p]> (handles w)) (refs w) (calls w))
           | None => None
           end.

(** Storage for a new handle object whose member initialiser stores [p]. *)
Definition alloc (this p : addr) : M world unit :=
  fun w => if decide (this = nullptr) then None else
           match handles w !! this with
           | Some _ => None
           | None => Some (tt, World (<[this := p]> (handles w)) (refs w) (calls w))
           end.

Definition free (this : addr) : M world unit :=
  fun w => match handles w !! this with
           | Some _ => Some (tt, World (delete this (handles w)) (refs w) (calls w))
           | None => None
           end.

(** [if (p) p->release();] and [if (p) p->duplicate();] *)
Definition release_if (p : addr) : M world unit :=
  if decide (p = nullptr) then ret tt else pointee_release p.
Definition duplicate_if (p : addr) : M world unit :=
  if decide (p = nullptr) then ret tt else (pointee_duplicate p ;; ret tt).

(** [basic_auto_ptr()] *)
Definition ctor_default (this : addr) : M world unit := alloc this nullptr.

(** [basic_auto_ptr(pointer ptr)] *)
Definition ctor_ptr (this ptr : addr) : M world unit := alloc this ptr.

(** [basic_auto_ptr(pointer ptr, bool shared) : m_ptr(ptr) { }] *)
Definition ctor_ptr_shared (this ptr : addr) (shared : bool) : M world unit :=
  alloc this ptr.

(** [basic_auto_ptr(const self_type& other) : m_ptr(other.m_ptr) { }] *)
Definition ctor_copy (this other : addr) : M world unit :=
  p <- get_ptr other ;; alloc this p.

(** [basic_auto_ptr(basic_auto_ptr&& other)] *)
Definition ctor_move (this other : addr) : M world unit :=
  p <- get_ptr other ;; alloc this p ;; set_ptr other nullptr.

(** [template <class TO> basic_auto_ptr(const basic_auto_ptr<TO>& other)] *)
Definition ctor_conv (this other : addr) : M world unit :=
  p <- get_ptr other ;; alloc this p ;;
  q <- get_ptr this ;; duplicate_if q.

(** [~basic_auto_ptr() { if (m_ptr) m_ptr->release(); }] *)
Definition dtor (this : addr) : M world unit :=
  p <- get_ptr this ;; release_if p ;; free this.

(** [pointer get()] and [bool isNull() const] *)
Definition get (this : addr) : M world addr := get_ptr this.
Definition isNull (this : addr) : M world bool :=
  p <- get_ptr this ;; ret (bool_decide (p = nullptr)).

(** [pointer duplicate()] of the handle. *)
Definition duplicate (this : addr) : M world addr :=
  p <- get_ptr this ;; duplicate_if p ;; get_ptr this.

(** [void reset()] *)
Definition reset (this : addr) : M world unit :=
  p <- get_ptr this ;;
  if decide (p = nullptr) then ret tt
  else pointee_release p ;; set_ptr this nullptr.

(** [self_type& assign(pointer other)] *)
Definition assign_ptr (this other : addr) : M world unit :=
  p <- get_ptr this ;;
  if decide (p = other) then ret tt
  else release_if p ;; set_ptr this other.

(** [self_type& assign(pointer other, bool shared)] *)
Definition assign_shared (this other : addr) (shared : bool) : M world unit :=
  p <- get_ptr this ;;
  if decide (p = other) then ret tt
  else
    release_if p ;; set_ptr this other ;;
    if shared then (q <- get_ptr this ;; duplicate_if q) else ret tt.

(** [self_type& assign(const self_type& other)]: the guard compares the
    handle objects' addresses. *)
Definition assign (this other : addr) : M world unit :=
  if decide (other = this) then ret tt
  else
    p <- get_ptr this ;; release_if p ;;
    o <- get_ptr other ;; set_ptr this o ;;
    q <- get_ptr this ;; duplicate_if q.

(** [template <class TO> self_type& assign(const basic_auto_ptr<TO>& other)]:
    the guard compares the held addresses. *)
Definition assign_conv (this other : addr) : M world unit :=
  o <- get_ptr other ;;
  p <- get_ptr this ;;
  if decide (o = p) then ret tt
  else
    release_if p ;;
    o' <- get_ptr other ;; set_ptr this o' ;;
    q <- get_ptr this ;; duplicate_if q.

(** [void reset(pointer ptr)], [void reset(pointer ptr, bool shared)] and
    [void reset(const self_type& ptr)] forward to the [assign] overloads,
    as do the copy and pointer [operator=]. *)
Definition reset_ptr := assign_ptr.
Definition reset_shared := assign_shared.
Definition reset_copy := assign.

(** [self_type& operator=(self_type&& other)] *)
Definition move_assign (this other : addr) : M world unit :=
  p <- get_ptr this ;; release_if p ;;
  o <- get_ptr other ;; set_ptr this o ;;
  set_ptr other nullptr.

(** [template <class TO> basic_auto_ptr<TO> dycast() const].  [cast] is
    the language's [dynamic_cast<TO*>] on addresses: [nullptr] where the
    runtime type of the object is not compatible with [TO], the (possibly
    adjusted) address of the [TO] sub-object otherwise.  The returned
    handle is constructed at [result]. *)
Definition dycast (cast : addr -> addr) (this result : addr) : M world unit :=
  p <- get_ptr this ;;
  let pOther := cast p in
  ctor_ptr_shared result pOther true.

(** [template <class TO> basic_auto_ptr<TO> scast() const] *)
Definition scast (cast : addr -> addr) (this result : addr) : M world unit :=
  p <- get_ptr this ;;
  let pOther := cast p in
  ctor_ptr_shared result pOther true.

(** How often [duplicate()] and [release()] were invoked on pointee [a]. *)
Definition duplicate_calls (a : addr) (w : world) : nat :=
  length (filter (fun c => c = Duplicate a) (calls w)).
Definition release_calls (a : addr) (w : world) : nat :=
  length (filter (fun c => c = Release a) (calls w)).

(** The pointees after one [release()] on a live pointee [p] whose count
    was [c]. *)
Definition released (p : N) (c : Z) (rs : gmap N Z) : gmap N Z :=
  if decide ((c - 1)%Z = 0%Z) then delete p rs else <[p := (c - 1)%Z]> rs.

(** Modelled from the spec: [squads::swap] comes from [algorithm.hpp],
    which is not part of the sources; it is the generic exchange of two
    values.  [void swap(self_type& ptr)] applies it to the two [m_ptr]
    members, and the free [swap(a, b)] is [a.swap(b)]. *)
Definition swap (this ptr : addr) : M world unit :=
  a <- get_ptr this ;; b <- get_ptr ptr ;;
  set_ptr this b ;; set_ptr ptr a.

(** Modelled from the spec: [new T(...)] in [make_auto] runs the pointee's
    constructor, which is not part of the sources; the object appears at
    an unused non-null address with its stored count "consistent with one
    implicit reference", that is 1. *)
Definition new_pointee (p : addr) : M world unit :=
  fun w => if decide (p = nullptr) then None else
           match refs w !! p with
           | Some _ => None
           | None => Some (tt, World (handles w) (<[p := 1%Z]> (refs w)) (calls w))
           end.

(** [make_auto<T>(args...)]: [auto_ptr<T>(new T(args...))], the returned
    handle being constructed at [result] and the new object at [p]. *)
Definition make_auto (result p : addr) : M world unit :=
  new_pointee p ;; ctor_ptr result p.

End AutoPtr.

(** * Properties of the circular-list shared pointer *)
Module LinkedPtrFacts.
Import LinkedPtr.

(** Symbolic execution of member functions on a store given by inserts
    over an arbitrary base map. *)
Ltac lp_unfold :=
  unfold ctor_copy, ctor_ptr, ctor_default, dtor, reset, assign, assign_ptr,
    link, self_link, unique, get, get_value, get_Next, get_Prev, set_value,
    set_Next, set_Prev, delete_, free, alloc, store, load, bind, ret, fault.

Ltac lp_simpl := cbn [nodes deleted Prev Next m_pValue].

Ltac lp_step :=
  first
    [ rewrite lookup_insert_eq
    | rewrite lookup_insert_ne by congruence
    | rewrite insert_insert_eq
    | rewrite decide_True by congruence
    | rewrite decide_False by congruence
    | rewrite bool_decide_eq_true_2 by congruence
    | rewrite bool_decide_eq_false_2 by congruence
    | match goal with
      | |- context [decide (?c = INT_MAX)] =>
          rewrite (decide_False (P := c = INT_MAX)) by (unfold INT_MAX; lia)
      end
    | match goal with H : _ !! _ = _ |- _ => rewrite H end ];
  lp_simpl.

Ltac lp_run := lp_unfold; lp_simpl; repeat lp_step.

(** Two stores with the same lookups are the same store. *)
Ltac lp_map_eq :=
  apply map_eq; intros ?k;
  repeat first
    [ rewrite lookup_insert_eq
    | rewrite lookup_delete_eq
    | rewrite lookup_insert_ne by congruence
    | rewrite lookup_delete_ne by congruence
    | match goal with
      | |- context [<[?a := _]> _ !! ?k] =>
          destruct (decide (a = k)) as [<- | ?]
      | |- context [delete ?a _ !! ?k] =>
          destruct (decide (a = k)) as [<- | ?]
      end ];
  try congruence.

(** Copy-constructing [q] from a live handle [p] with a non-null value:
    [q] is put after [p] on the [Next] side, and the [Prev] link of [p]'s
    old successor is left as it was. *)
Lemma ctor_copy_nonnull ns dl p q pp pn v :
  ns !! p = Some (Node pp pn v) -> v <> nullptr ->
  q <> nullptr -> ns !! q = None ->
  ctor_copy q p (Mem ns dl)
  = Some (tt, Mem (<[p := Node pp q v]> (<[q := Node p pn v]> ns)) dl).
Proof.
  intros Hp Hv Hq Hfresh.
  assert (p <> q) by congruence.
  lp_run. reflexivity.
Qed.

(** Running the counting loop from [this] when its [Next] link is not
    [this] never yields the initial counter. *)
Lemma count_loop_lower fuel this cur acc m r m' :
  count_loop fuel this cur acc m = Some (r, m') -> (acc <= r)%Z /\ m' = m.
Proof.
  revert cur acc. induction fuel as [|fuel IH]; intros cur acc; cbn.
  - discriminate.
  - unfold get_Next, load, bind, ret.
    destruct (nodes m !! cur) as [nd|]; cbn; [|discriminate].
    destruct (decide (Next nd = this)); cbn.
    + intros [= <- <-]. split; [lia | reflexivity].
    + destruct (decide (acc = INT_MAX)); [discriminate|].
      intros H. apply IH in H. split; [lia | tauto].
Qed.

(** On the repaired copy constructor and destructor (see [link] and
    [dtor]; the header as written can instantiate neither): copying a
    singleton handle [p] that owns a non-null value into a new handle [q]
    makes [count()] 2 and [unique()] false on both; then destroying [q]
    gives back the state before the copy, so [p] again has
    [count() == 1] and [unique() == true], and nothing was deleted. *)
Theorem copy_then_destroy_restores_singleton (m : mem) (p q v : N) (fuel : nat) :
  nodes m !! p = Some (Node p p v) -> v <> nullptr ->
  q <> nullptr -> nodes m !! q = None -> (2 <= fuel)%nat ->
  exists m1,
    ctor_copy q p m = Some (tt, m1) /\
    count fuel p m1 = Some (2%Z, m1) /\ count fuel q m1 = Some (2%Z, m1) /\
    unique p m1 = Some (false, m1) /\ unique q m1 = Some (false, m1) /\
    dtor q m1 = Some (tt, m) /\ deleted m1 = deleted m /\
    count fuel p m = Some (1%Z, m) /\ unique p m = Some (true, m) /\
    get p m = Some (v, m).
Proof.
  destruct m as [ns dl]. cbn [nodes deleted].
  intros Hp Hv Hq Hfresh Hfuel.
  assert (Hpq : p <> q) by congruence.
  destruct fuel as [|[|fuel]]; [lia | lia |].
  eexists. split; [apply (ctor_copy_nonnull ns dl p q p p v); assumption |].
  unfold count. cbn [count_loop].
  repeat split; try (lp_run; reflexivity).
  lp_run. do 3 f_equal.
  lp_map_eq.
Qed.

(** The same at a concrete store: handle 1 owns object 100, handle 2 is
    new. *)
Lemma copy_then_destroy_restores_singleton_witness :
  exists m1,
    ctor_copy 2 1 (Mem {[1 := Node 1 1 100]} []) = Some (tt, m1) /\
    count 2 1 m1 = Some (2%Z, m1) /\ count 2 2 m1 = Some (2%Z, m1) /\
    unique 1 m1 = Some (false, m1) /\ unique 2 m1 = Some (false, m1) /\
    dtor 2 m1 = Some (tt, Mem {[1 := Node 1 1 100]} []) /\
    deleted m1 = [] /\
    count 2 1 (Mem {[1 := Node 1 1 100]} []) = Some (1%Z, Mem {[1 := Node 1 1 100]} []) /\
    unique 1 (Mem {[1 := Node 1 1 100]} []) = Some (true, Mem {[1 := Node 1 1 100]} []) /\
    get 1 (Mem {[1 := Node 1 1 100]} []) = Some (100, Mem {[1 := Node 1 1 100]} []).
Proof.
  apply (copy_then_destroy_restores_singleton
           (Mem {[1 := Node 1 1 100]} []) 1 2 100 2).
  - reflexivity.
  - discriminate.
  - discriminate.
  - reflexivity.
  - lia.
Defined.

(** [unique()] on a live handle just compares its [Next] link with its
    own address and leaves the state alone. *)
Lemma unique_live m this nd :
  nodes m !! this = Some nd ->
  unique this m = Some (bool_decide (Next nd = this), m).
Proof. intros H. lp_run. reflexivity. Qed.

(** C8: on every live handle, [unique()] is true exactly when [count()]
    is 1, and both exactly when the handle's [Next] link is the handle
    itself; a default-constructed handle is null, unique and counts 1. *)
Theorem unique_iff_count_one (m : mem) (this : N) (fuel : nat) :
  (0 < fuel)%nat ->
  (forall nd, nodes m !! this = Some nd ->
     (unique this m = Some (true, m) <-> count fuel this m = Some (1%Z, m)) /\
     (unique this m = Some (true, m) <-> Next nd = this)) /\
  (this <> nullptr -> nodes m !! this = None ->
   exists m', ctor_default this m = Some (tt, m') /\
              get this m' = Some (nullptr, m') /\
              unique this m' = Some (true, m') /\
              count fuel this m' = Some (1%Z, m')).
Proof.
  intros Hfuel. destruct fuel as [|fuel]; [lia|]. split.
  - intros nd Hnd.
    assert (Hu : unique this m = Some (true, m) <-> Next nd = this).
    { rewrite (unique_live m this nd Hnd). split.
      - intros [= H]. by apply bool_decide_eq_true_1 in H.
      - intros H. by rewrite bool_decide_eq_true_2. }
    split; [|exact Hu]. rewrite Hu.
    unfold count. cbn [count_loop]. unfold get_Next, load, bind, ret.
    rewrite Hnd. cbn. destruct (decide (Next nd = this)) as [e|ne]; cbn.
    + tauto.
    + split; [tauto|]. intros H. apply count_loop_lower in H. lia.
  - intros Hnn Hfresh. destruct m as [ns dl]. cbn [nodes] in Hfresh.
    eexists. split; [lp_run; reflexivity|].
    unfold count. cbn [count_loop].
    repeat split; (lp_run; reflexivity).
Qed.

(** C8 at a concrete store: handle 1 is a live singleton, address 2 is
    free for a default-constructed handle. *)
Lemma unique_iff_count_one_witness :
  (unique 1 (Mem {[1 := Node 1 1 100]} []) = Some (true, Mem {[1 := Node 1 1 100]} [])
   <-> count 1 1 (Mem {[1 := Node 1 1 100]} []) = Some (1%Z, Mem {[1 := Node 1 1 100]} []))
  /\ exists m', ctor_default 2 (Mem {[1 := Node 1 1 100]} []) = Some (tt, m') /\
                get 2 m' = Some (nullptr, m') /\
                unique 2 m' = Some (true, m') /\
                count 1 2 m' = Some (1%Z, m').
Proof.
  split.
  - apply (proj1 (unique_iff_count_one (Mem {[1 := Node 1 1 100]} []) 1 1
                    ltac:(lia))
             (Node 1 1 100) eq_refl).
  - apply (proj2 (unique_iff_count_one (Mem {[1 := Node 1 1 100]} []) 2 1
                    ltac:(lia))).
    + discriminate.
    + reflexivity.
Defined.

(** [detach()] called on a member of a three-node [Next] cycle visits the
    three nodes, whatever their [Prev] links are. *)
Lemma detach_three_cycle ns dl a b c pa pb pc v vb vc fuel :
  a <> b -> b <> c -> a <> c ->
  ns !! a = Some (Node pa b v) -> ns !! b = Some (Node pb c vb) ->
  ns !! c = Some (Node pc a vc) ->
  detach (S (S (S fuel))) a (Mem ns dl)
  = Some (v, Mem (<[c := Node c c nullptr]>
                    (<[b := Node b b nullptr]>
                       (<[a := Node a a nullptr]> ns))) dl).
Proof.
  intros Hab Hbc Hac Ha Hb Hc.
  unfold detach. cbn [detach_loop]. lp_run. reflexivity.
Qed.

(** [count()] on a member of a three-node [Next] cycle. *)
Lemma count_three_cycle ns dl a b c pa pb pc va vb vc fuel :
  a <> b -> b <> c -> a <> c ->
  ns !! a = Some (Node pa b va) -> ns !! b = Some (Node pb c vb) ->
  ns !! c = Some (Node pc a vc) ->
  count (S (S (S fuel))) a (Mem ns dl) = Some (3%Z, Mem ns dl).
Proof.
  intros Hab Hbc Hac Ha Hb Hc.
  unfold count. cbn [count_loop]. lp_run. reflexivity.
Qed.

(** Both goals about a handle [a] whose [Next] cycle is [a -> b -> c -> a]. *)
Ltac on_three_cycle a b c :=
  split;
  [ eapply (count_three_cycle _ _ a b c); try congruence; by lp_run
  | erewrite (detach_three_cycle _ _ a b c); try congruence;
    [ do 3 f_equal; lp_map_eq | by lp_run .. ] ].

(** After a singleton [p] is copied into [q], the back links are wrong at
    both handles: [p.Prev] is still [p] although [p.Next] is [q]. *)
Lemma copy_of_singleton_not_linked ns dl p q v :
  ns !! p = Some (Node p p v) -> v <> nullptr ->
  q <> nullptr -> ns !! q = None ->
  exists m1,
    ctor_copy q p (Mem ns dl) = Some (tt, m1) /\
    nodes m1 !! p = Some (Node p q v) /\
    nodes m1 !! q = Some (Node p p v) /\
    linked_ok m1 p = false /\ linked_ok m1 q = false.
Proof.
  intros Hp Hv Hq Hfresh.
  assert (Hpq : p <> q) by congruence.
  eexists. split; [by apply ctor_copy_nonnull|].
  unfold linked_ok. lp_simpl.
  repeat split; repeat lp_step; reflexivity.
Qed.

(** On the repaired copy constructor (see [link]; the header as written
    cannot instantiate it): let [p] be a singleton owning [v], let [q] be
    copy-constructed from [p] and [r] from [p] or from [q].  Then
    [detach()] on any of the three returns [v], leaves all three null and
    each its own singleton cycle, touches no other handle and deletes
    nothing. *)
Theorem detach_three_way_shared (m : mem) (p q r src t v : N) (fuel : nat) :
  nodes m !! p = Some (Node p p v) -> v <> nullptr ->
  q <> nullptr -> r <> nullptr -> q <> r ->
  nodes m !! q = None -> nodes m !! r = None ->
  src = p \/ src = q -> t = p \/ t = q \/ t = r -> (3 <= fuel)%nat ->
  exists m1 m2,
    ctor_copy q p m = Some (tt, m1) /\
    ctor_copy r src m1 = Some (tt, m2) /\
    count fuel t m2 = Some (3%Z, m2) /\
    detach fuel t m2
    = Some (v, Mem (<[p := Node p p nullptr]>
                      (<[q := Node q q nullptr]>
                         (<[r := Node r r nullptr]> (nodes m))))
                   (deleted m)).
Proof.
  destruct m as [ns dl]. cbn [nodes deleted].
  intros Hp Hv Hq Hr Hqr Hfq Hfr Hsrc Ht Hfuel.
  assert (Hpq : p <> q) by congruence.
  assert (Hpr : p <> r) by congruence.
  destruct fuel as [|[|[|fuel]]]; [lia | lia | lia |].
  pose proof (ctor_copy_nonnull ns dl p q p p v Hp Hv Hq Hfq) as Hc1.
  destruct Hsrc as [-> | ->].
  - (* r is spliced in after p: p -> r -> q -> p *)
    eexists. eexists. split; [exact Hc1|]. split.
    { eapply ctor_copy_nonnull; [by lp_run | assumption | assumption | by lp_run]. }
    destruct Ht as [-> | [-> | ->]];
      [ on_three_cycle p r q | on_three_cycle q p r | on_three_cycle r q p ].
  - (* r is spliced in after q: p -> q -> r -> p *)
    eexists. eexists. split; [exact Hc1|]. split.
    { eapply ctor_copy_nonnull; [by lp_run | assumption | assumption | by lp_run]. }
    destruct Ht as [-> | [-> | ->]];
      [ on_three_cycle p q r | on_three_cycle q r p | on_three_cycle r p q ].
Qed.

(** The same at a concrete store: handle 1 owns object 100, handles 2
    and 3 are both copied from handle 1, and [detach()] is called on
    handle 2. *)
Lemma detach_three_way_shared_witness :
  exists m1 m2,
    ctor_copy 2 1 (Mem {[1 := Node 1 1 100]} []) = Some (tt, m1) /\
    ctor_copy 3 1 m1 = Some (tt, m2) /\
    count 3 2 m2 = Some (3%Z, m2) /\
    detach 3 2 m2
    = Some (100, Mem (<[1 := Node 1 1 nullptr]>
                        (<[2 := Node 2 2 nullptr]>
                           (<[3 := Node 3 3 nullptr]> {[1 := Node 1 1 100]})))
                     []).
Proof.
  refine (detach_three_way_shared
            (Mem {[1 := Node 1 1 100]} []) 1 2 3 1 2 100 3
            _ _ _ _ _ _ _ _ _ _).
  - reflexivity.
  - discriminate.
  - discriminate.
  - discriminate.
  - discriminate.
  - reflexivity.
  - reflexivity.
  - left. reflexivity.
  - right. left. reflexivity.
  - lia.
Defined.

(** C1: three handles share object 100; handle 2 is destroyed, then
    handle 1.  Destroying handle 1 deletes the object although handle 3 is
    alive and still holds it.  In the second run handle 1 is reset to null
    while handle 2 shares the object, then both are destroyed: the object
    is never deleted.  In the third run two handles share the object and
    the older one is destroyed first: the younger one is left with links
    to the dead handle, and its destructor writes through them. *)
Theorem shared_object_lifetime_broken :
  (ctor_ptr 1 100 ;; ctor_copy 2 1 ;; ctor_copy 3 1 ;; dtor 2 ;; dtor 1)
    empty_mem
  = Some (tt, Mem {[3 := Node 1 2 100]} [100])
  /\
  (ctor_ptr 1 100 ;; ctor_copy 2 1 ;; assign_ptr 1 nullptr ;; dtor 2 ;; dtor 1)
    empty_mem
  = Some (tt, Mem ∅ [])
  /\
  (ctor_ptr 1 100 ;; ctor_copy 2 1 ;; dtor 1) empty_mem
  = Some (tt, Mem {[2 := Node 1 1 100]} [])
  /\
  (ctor_ptr 1 100 ;; ctor_copy 2 1 ;; dtor 1 ;; dtor 2) empty_mem = None.
Proof. repeat split; vm_compute; reflexivity. Qed.

(** C2: after one copy of a singleton, neither handle satisfies
    [n.Next.Prev == n] and [n.Prev.Next == n]; after a second copy and the
    destruction of the first copy, following [Next] from handle 1 meets
    only handle 1 although handles 1 and 3 both hold the object. *)
Theorem link_breaks_cycle_invariant :
  exists m2 m3,
    (ctor_ptr 1 100 ;; ctor_copy 2 1) empty_mem = Some (tt, m2) /\
    linked_ok m2 1 = false /\ linked_ok m2 2 = false /\
    (ctor_copy 3 1 ;; dtor 2) m2 = Some (tt, m3) /\
    next_walk 3 m3 1 1 = [1] /\
    aliases m3 100 = {[1; 3]}.
Proof.
  exists (Mem (<[2 := Node 1 1 100]> {[1 := Node 1 2 100]}) []).
  exists (Mem (<[3 := Node 1 2 100]> {[1 := Node 1 1 100]}) []).
  repeat split; vm_compute; reflexivity.
Qed.

End LinkedPtrFacts.

(** * Properties of the intrusive reference-counted pointer *)
Module AutoPtrFacts.
Import AutoPtr.

Ltac ap_unfold :=
  unfold reset_shared, reset_ptr, reset_copy, dycast, scast, move_assign,
    assign_conv, assign, assign_shared, assign_ptr, reset, duplicate, isNull,
    get, dtor, ctor_conv, ctor_move, ctor_copy, ctor_ptr_shared, ctor_ptr,
    ctor_default, duplicate_if, release_if, free, alloc, set_ptr, get_ptr,
    pointee_release, pointee_duplicate, bind, ret, fault.

Ltac ap_simpl := cbn [handles refs calls].

Ltac ap_step :=
  first
    [ rewrite lookup_insert_eq
    | rewrite lookup_insert_ne by congruence
    | rewrite lookup_delete_ne by congruence
    | rewrite insert_insert_eq
    | rewrite decide_True by congruence
    | rewrite decide_False by congruence
    | match goal with H : _ !! _ = _ |- _ => rewrite H end ];
  ap_simpl.

Ltac ap_run := ap_unfold; ap_simpl; repeat ap_step.

(** Counting the calls in an explicit log. *)
Ltac count_calls :=
  unfold duplicate_calls, release_calls; cbn [calls];
  rewrite ?filter_cons; repeat case_decide; try congruence; reflexivity.

(** The calls counted by [duplicate_calls] and [release_calls]. *)
Lemma duplicate_calls_cons_same a w w' :
  calls w' = Duplicate a :: calls w ->
  duplicate_calls a w' = S (duplicate_calls a w).
Proof.
  unfold duplicate_calls. intros ->.
  rewrite filter_cons_True by reflexivity. reflexivity.
Qed.

Lemma duplicate_calls_cons_release a b w w' :
  calls w' = Release b :: calls w ->
  duplicate_calls a w' = duplicate_calls a w.
Proof.
  unfold duplicate_calls. intros ->.
  rewrite filter_cons_False by discriminate. reflexivity.
Qed.

Lemma release_calls_cons_same a w w' :
  calls w' = Release a :: calls w ->
  release_calls a w' = S (release_calls a w).
Proof.
  unfold release_calls. intros ->.
  rewrite filter_cons_True by reflexivity. reflexivity.
Qed.

(** The copy constructor and the two-argument constructor touch neither
    the pointees nor the call log. *)
Lemma ctor_copy_calls_nothing w w' this other :
  ctor_copy this other w = Some (tt, w') ->
  calls w' = calls w /\ refs w' = refs w.
Proof.
  unfold ctor_copy, alloc, get_ptr, bind.
  destruct (handles w !! other); [|discriminate].
  destruct (decide (this = nullptr)); [discriminate|].
  destruct (handles w !! this); [discriminate|].
  intros [= <-]. split; reflexivity.
Qed.

Lemma dycast_calls_nothing cast w w' this result :
  dycast cast this result w = Some (tt, w') ->
  calls w' = calls w /\ refs w' = refs w.
Proof.
  unfold dycast, ctor_ptr_shared, alloc, get_ptr, bind.
  destruct (handles w !! this); [|discriminate].
  destruct (decide (result = nullptr)); [discriminate|].
  destruct (handles w !! result); [discriminate|].
  intros [= <-]. split; reflexivity.
Qed.

(** C3: a handle at address 1 owns pointee 100.  Copy-constructing handle
    2 from it makes no [duplicate()] call, so destroying the copy lowers
    the pointee's count below its value before the copy (from 2 to 1), and
    destroys the pointee outright when the count was 1, while handle 1
    still holds the address.  The converting constructor, in the same
    situation, does call [duplicate()]. *)
Theorem copy_constructor_skips_duplicate :
  ctor_copy 2 1 (World {[1 := 100]} {[100 := 2%Z]} [])
  = Some (tt, World (<[2 := 100]> {[1 := 100]}) {[100 := 2%Z]} [])
  /\
  (ctor_copy 2 1 ;; dtor 2) (World {[1 := 100]} {[100 := 2%Z]} [])
  = Some (tt, World {[1 := 100]} {[100 := 1%Z]} [Release 100])
  /\
  (ctor_copy 2 1 ;; dtor 2) (World {[1 := 100]} {[100 := 1%Z]} [])
  = Some (tt, World {[1 := 100]} ∅ [Release 100])
  /\
  (ctor_conv 2 1 ;; dtor 2) (World {[1 := 100]} {[100 := 1%Z]} [])
  = Some (tt, World {[1 := 100]} {[100 := 1%Z]} [Release 100; Duplicate 100]).
Proof. repeat split; vm_compute; reflexivity. Qed.

(** C4: a handle at address 1 owns pointee 100, whose count is 1, and the
    cast to [TO] succeeds without moving the address.  [dycast] returns a
    non-null handle and leaves the source alone, but makes no
    [duplicate()] call: the count stays 1 with two owners, and destroying
    the result destroys the pointee under the source.  With an
    incompatible runtime type the result is the null handle. *)
Theorem dycast_skips_duplicate :
  dycast (fun a => a) 1 2 (World {[1 := 100]} {[100 := 1%Z]} [])
  = Some (tt, World (<[2 := 100]> {[1 := 100]}) {[100 := 1%Z]} [])
  /\
  (dycast (fun a => a) 1 2 ;; dtor 2) (World {[1 := 100]} {[100 := 1%Z]} [])
  = Some (tt, World {[1 := 100]} ∅ [Release 100])
  /\
  dycast (fun _ => nullptr) 1 2 (World {[1 := 100]} {[100 := 1%Z]} [])
  = Some (tt, World (<[2 := nullptr]> {[1 := 100]}) {[100 := 1%Z]} []).
Proof. repeat split; vm_compute; reflexivity. Qed.

(** C10: move-assigning a handle that holds a non-null address to itself
    calls [release()] on the pointee once, calls nothing else, and leaves
    the handle null. *)
Theorem self_move_assign_releases (w : world) (h p : N) (c : Z) :
  handles w !! h = Some p -> p <> nullptr -> refs w !! p = Some c ->
  exists w',
    move_assign h h w = Some (tt, w') /\
    calls w' = Release p :: calls w /\
    release_calls p w' = S (release_calls p w) /\
    duplicate_calls p w' = duplicate_calls p w /\
    get h w' = Some (nullptr, w') /\
    isNull h w' = Some (true, w').
Proof.
  destruct w as [hs rs cs]. cbn [handles refs calls].
  intros Hh Hp Hc.
  eexists. split; [ap_run; reflexivity|].
  split; [reflexivity|].
  split; [by apply release_calls_cons_same|].
  split; [by apply (duplicate_calls_cons_release p p)|].
  split; (ap_run; reflexivity).
Qed.

(** C10 at a concrete state: handle 1 holds pointee 100 with count 1. *)
Lemma self_move_assign_releases_witness :
  exists w',
    move_assign 1 1 (World {[1 := 100]} {[100 := 1%Z]} []) = Some (tt, w') /\
    calls w' = [Release 100] /\
    release_calls 100 w' = 1%nat /\
    duplicate_calls 100 w' = 0%nat /\
    get 1 w' = Some (nullptr, w') /\
    isNull 1 w' = Some (true, w').
Proof.
  refine (self_move_assign_releases
            (World {[1 := 100]} {[100 := 1%Z]} []) 1 100 1 _ _ _).
  - reflexivity.
  - discriminate.
  - reflexivity.
Defined.

(** [reset(p, shared)] on a handle that holds [old], for a live pointee
    [p] other than [old]: the old pointee is released, [p] is adopted and
    [duplicate()] is called on it exactly when [shared] is set. *)
Lemma reset_shared_other_address w this p old c shared :
  handles w !! this = Some old -> p <> nullptr -> p <> old ->
  refs w !! p = Some c -> old = nullptr \/ is_Some (refs w !! old) ->
  exists w',
    reset_shared this p shared w = Some (tt, w') /\
    handles w' !! this = Some p /\
    duplicate_calls p w'
    = (if shared then S (duplicate_calls p w) else duplicate_calls p w).
Proof.
  destruct w as [hs rs cs]. cbn [handles refs calls].
  intros Hh Hp Hne Hc Hold.
  assert (Hne' : old <> p) by congruence.
  destruct (decide (old = nullptr)) as [-> | Hnn].
  - destruct shared; eexists; (split; [ap_run; reflexivity|]);
      (split; [ap_run; reflexivity|]); count_calls.
  - destruct Hold as [-> | [co Hco]]; [congruence|].
    destruct (decide ((co - 1)%Z = 0%Z)) as [Hz | Hz];
      destruct shared; eexists; (split; [ap_run; reflexivity|]);
      (split; [ap_run; reflexivity|]); count_calls.
Qed.

(** C9, amended: the two-argument constructor stores [p] and calls nothing,
    whatever [shared] is, exactly as the one-argument constructor does;
    [reset(p, shared)] calls [duplicate()] on a non-null [p] when [shared]
    is true and [p] is not the address already held, and does nothing at
    all when [p] is the address already held. *)
Theorem ctor_ignores_shared_flag (w : world) (h this p old : N) (s : bool) (c : Z) :
  ctor_ptr_shared h p s w = ctor_ptr h p w /\
  (h <> nullptr -> handles w !! h = None ->
   ctor_ptr_shared h p s w
   = Some (tt, World (<[h := p]> (handles w)) (refs w) (calls w))) /\
  (handles w !! this = Some old -> p <> nullptr -> p <> old ->
   refs w !! p = Some c -> old = nullptr \/ is_Some (refs w !! old) ->
   exists w',
     reset_shared this p true w = Some (tt, w') /\
     handles w' !! this = Some p /\
     duplicate_calls p w' = S (duplicate_calls p w)) /\
  (handles w !! this = Some p -> reset_shared this p s w = Some (tt, w)).
Proof.
  split; [reflexivity|]. split; [|split].
  - intros Hh Hfresh. ap_run. reflexivity.
  - intros Hh Hp Hne Hc Hold.
    apply (reset_shared_other_address w this p old c true); assumption.
  - intros Hh. ap_run. reflexivity.
Qed.

(** C9 as first stated fails where the handle already holds [p]: handle 1
    holds the non-null address 100 and [reset(100, true)] makes no
    [duplicate()] call. *)
Lemma reset_shared_same_address_no_duplicate :
  handles (World {[1 := 100]} {[100 := 1%Z]} []) !! 1 = Some 100 /\
  100 <> nullptr /\
  ~ (exists w',
       reset_shared 1 100 true (World {[1 := 100]} {[100 := 1%Z]} [])
       = Some (tt, w') /\
       Nat.lt (duplicate_calls 100 (World {[1 := 100]} {[100 := 1%Z]} []))
              (duplicate_calls 100 w')).
Proof.
  split; [reflexivity|]. split; [discriminate|].
  intros [w' [Hrun Hlt]]. vm_compute in Hrun.
  injection Hrun as <-. vm_compute in Hlt. lia.
Qed.

(** C9 at a concrete state: address 3 is free for a new handle, handle 1
    holds pointee 100 and is reset to pointee 200, handle 2 holds 200. *)
Lemma ctor_ignores_shared_flag_witness :
  ctor_ptr_shared 3 200 true (World {[1 := 100; 2 := 200]} {[100 := 1%Z; 200 := 1%Z]} [])
  = Some (tt, World (<[3 := 200]> {[1 := 100; 2 := 200]}) {[100 := 1%Z; 200 := 1%Z]} [])
  /\
  (exists w',
     reset_shared 1 200 true (World {[1 := 100; 2 := 200]} {[100 := 1%Z; 200 := 1%Z]} [])
     = Some (tt, w') /\
     handles w' !! 1 = Some 200 /\
     duplicate_calls 200 w' = 1%nat)
  /\
  reset_shared 2 200 true (World {[1 := 100; 2 := 200]} {[100 := 1%Z; 200 := 1%Z]} [])
  = Some (tt, World {[1 := 100; 2 := 200]} {[100 := 1%Z; 200 := 1%Z]} []).
Proof.
  split; [|split].
  - refine (proj1 (proj2 (ctor_ignores_shared_flag
              (World {[1 := 100; 2 := 200]} {[100 := 1%Z; 200 := 1%Z]} [])
              3 1 200 100 true 1)) _ _).
    + discriminate.
    + reflexivity.
  - refine (proj1 (proj2 (proj2 (ctor_ignores_shared_flag
              (World {[1 := 100; 2 := 200]} {[100 := 1%Z; 200 := 1%Z]} [])
              3 1 200 100 true 1))) _ _ _ _ _).
    + reflexivity.
    + discriminate.
    + discriminate.
    + reflexivity.
    + right. exists 1%Z. reflexivity.
  - refine (proj2 (proj2 (proj2 (ctor_ignores_shared_flag
              (World {[1 := 100; 2 := 200]} {[100 := 1%Z; 200 := 1%Z]} [])
              3 2 200 100 true 1))) _).
    reflexivity.
Defined.






End AutoPtrFacts.

(** * Assignment of an address that is already held *)




(** * Cycles of any length in the circular-list shared pointer *)
Module LinkedPtrCycles.
Import LinkedPtr LinkedPtrFacts.

Lemma chain_cons ns x l last :
  chain ns (x :: l) last = true <->
  exists nd, ns !! x = Some nd /\ Next nd = hd last l /\ chain ns l last = true.
Proof.
  cbn [chain]. destruct (ns !! x) as [nd|].
  - rewrite andb_true_iff, bool_decide_eq_true. split.
    + intros [H1 H2]. by exists nd.
    + intros (nd' & [= <-] & H1 & H2). by split.
  - split; [discriminate|]. by intros (nd' & ? & _).
Qed.

Lemma chain_live ns l last x :
  chain ns l last = true -> x ∈ l -> is_Some (ns !! x).
Proof.
  induction l as [|y l IH]; intros Hc Hx.
  - by apply elem_of_nil in Hx.
  - apply chain_cons in Hc as (nd & Hy & _ & Hc).
    apply elem_of_cons in Hx as [-> | Hx]; [by exists nd | by apply IH].
Qed.

Lemma chain_insert_other ns l last x nd :
  x ∉ l -> chain (<[x := nd]> ns) l last = chain ns l last.
Proof.
  induction l as [|y l IH]; intros Hx; [reflexivity|].
  apply not_elem_of_cons in Hx as [Hxy Hx]. cbn [chain].
  rewrite lookup_insert_ne by done. by rewrite IH.
Qed.

Lemma nulled_insert_other l ns x nd :
  x ∉ l -> nulled l (<[x := nd]> ns) = <[x := nd]> (nulled l ns).
Proof.
  induction l as [|y l IH]; intros Hx; [reflexivity|].
  apply not_elem_of_cons in Hx as [Hxy Hx]. unfold nulled in *. cbn [foldr].
  rewrite IH by done. by apply insert_insert_ne.
Qed.

Lemma nulled_lookup_in l ns x :
  x ∈ l -> nulled l ns !! x = Some (Node x x nullptr).
Proof.
  induction l as [|y l IH]; intros Hx.
  - by apply elem_of_nil in Hx.
  - unfold nulled in *. cbn [foldr].
    destruct (decide (y = x)) as [-> | Hne].
    + by rewrite lookup_insert_eq.
    + rewrite lookup_insert_ne by done.
      apply elem_of_cons in Hx as [-> | Hx]; [done | by apply IH].
Qed.

Lemma nulled_lookup_out l ns x :
  x ∉ l -> nulled l ns !! x = ns !! x.
Proof.
  induction l as [|y l IH]; intros Hx; [reflexivity|].
  apply not_elem_of_cons in Hx as [Hxy Hx]. unfold nulled in *. cbn [foldr].
  rewrite lookup_insert_ne by done. by apply IH.
Qed.

(** The counting loop along a chain that ends at [this]. *)
Lemma count_loop_chain ns dl this l x acc fuel :
  chain ns (x :: l) this = true -> this ∉ l -> (length l < fuel)%nat ->
  (acc + Z.of_nat (length l) <= INT_MAX)%Z ->
  count_loop fuel this x acc (Mem ns dl)
  = Some ((acc + Z.of_nat (length l))%Z, Mem ns dl).
Proof.
  revert x acc fuel.
  induction l as [|y l IH]; intros x acc fuel Hc Hthis Hfuel Hmax;
    (destruct fuel as [|fuel]; [cbn in Hfuel; lia|]);
    apply chain_cons in Hc as (nd & Hx & Hnext & Hc); cbn [hd] in Hnext;
    cbn [count_loop]; unfold get_Next, load, bind, ret; cbn [nodes];
    rewrite Hx; cbn.
  - rewrite decide_True by done. do 2 f_equal. lia.
  - apply not_elem_of_cons in Hthis as [Hne Hthis].
    rewrite decide_False by congruence.
    cbn [length] in Hmax. rewrite decide_False by lia. rewrite Hnext.
    rewrite (IH y (acc + 1)%Z fuel Hc Hthis) by (cbn in Hfuel; lia).
    do 2 f_equal. cbn [length]. lia.
Qed.

(** The detaching loop along a chain that ends at [this]. *)
Lemma detach_loop_chain dl this l ns x fuel :
  chain ns (x :: l) this = true -> NoDup (x :: l) -> this ∉ l ->
  (length l < fuel)%nat ->
  detach_loop fuel this x (Mem ns dl) = Some (tt, Mem (nulled (x :: l) ns) dl).
Proof.
  revert ns x fuel. induction l as [|y l IH]; intros ns x fuel Hc Hnd Hthis Hfuel;
    (destruct fuel as [|fuel]; [cbn in Hfuel; lia|]);
    apply chain_cons in Hc as (nd & Hx & Hnext & Hc); cbn [hd] in Hnext;
    cbn [detach_loop]; lp_run.
  - reflexivity.
  - apply not_elem_of_cons in Hthis as [Hne Hthis].
    apply NoDup_cons in Hnd as [Hxl Hnd].
    rewrite decide_False by congruence. rewrite Hnext.
    rewrite (IH (<[x := Node x x nullptr]> ns) y fuel).
    + rewrite nulled_insert_other by done. reflexivity.
    + by rewrite chain_insert_other.
    + done.
    + done.
    + cbn in Hfuel. lia.
Qed.

(** X1: a handle built from a raw address at a free location is a
    singleton that owns it: [get()] returns the address, [unique()] is
    true, [count()] is 1 and [operator bool] tells whether the address is
    non-null.  Nothing is deleted and no other handle is touched. *)
Theorem ctor_ptr_is_singleton (m : mem) (this v : N) (fuel : nat) :
  this <> nullptr -> nodes m !! this = None -> (0 < fuel)%nat ->
  let m1 := Mem (<[this := Node this this v]> (nodes m)) (deleted m) in
  ctor_ptr this v m = Some (tt, m1) /\
  get this m1 = Some (v, m1) /\
  unique this m1 = Some (true, m1) /\
  count fuel this m1 = Some (1%Z, m1) /\
  to_bool this m1 = Some (negb (bool_decide (v = nullptr)), m1).
Proof.
  destruct m as [ns dl]. cbn [nodes deleted]. intros Hnn Hfresh Hfuel.
  destruct fuel as [|fuel]; [lia|].
  unfold count, to_bool. cbn [count_loop].
  repeat split; (lp_run; reflexivity).
Qed.

Lemma ctor_ptr_is_singleton_witness :
  ctor_ptr 1 100 empty_mem = Some (tt, Mem (<[1 := Node 1 1 100]> ∅) []) /\
  get 1 (Mem (<[1 := Node 1 1 100]> ∅) [])
  = Some (100, Mem (<[1 := Node 1 1 100]> ∅) []) /\
  unique 1 (Mem (<[1 := Node 1 1 100]> ∅) [])
  = Some (true, Mem (<[1 := Node 1 1 100]> ∅) []) /\
  count 1 1 (Mem (<[1 := Node 1 1 100]> ∅) [])
  = Some (1%Z, Mem (<[1 := Node 1 1 100]> ∅) []) /\
  to_bool 1 (Mem (<[1 := Node 1 1 100]> ∅) [])
  = Some (true, Mem (<[1 := Node 1 1 100]> ∅) []).
Proof.
  refine (ctor_ptr_is_singleton empty_mem 1 100 1 _ _ _).
  - discriminate.
  - reflexivity.
  - lia.
Defined.

(** X2: [reset(p)] on a handle that is alone in its cycle.  With the
    address it already holds nothing happens, so the object is not
    deleted; with any other address the old object is deleted once (never
    the null address), [p] is adopted and the links are left alone. *)
Theorem reset_unique (m : mem) (this pv old p : N) :
  nodes m !! this = Some (Node pv this old) ->
  reset this old m = Some (tt, m) /\
  (p <> old ->
   reset this p m
   = Some (tt, Mem (<[this := Node pv this p]> (nodes m))
                   (if decide (old = nullptr) then deleted m
                    else old :: deleted m))).
Proof.
  destruct m as [ns dl]. cbn [nodes deleted]. intros Hthis. split.
  - lp_run. reflexivity.
  - intros Hp. lp_run.
    destruct (decide (old = nullptr)) as [-> | Hold]; lp_run; reflexivity.
Qed.

Lemma reset_unique_witness :
  reset 1 100 (Mem {[1 := Node 1 1 100]} []) = Some (tt, Mem {[1 := Node 1 1 100]} [])
  /\
  reset 1 200 (Mem {[1 := Node 1 1 100]} [])
  = Some (tt, Mem (<[1 := Node 1 1 200]> {[1 := Node 1 1 100]}) [100]).
Proof.
  pose proof (reset_unique (Mem {[1 := Node 1 1 100]} []) 1 1 100 200 eq_refl)
    as [H1 H2].
  split; [exact H1|]. apply H2. discriminate.
Defined.

(** X3: when following [Next] from [a] runs through the handles of [l],
    none of them [a], and comes back to [a], and the number of handles on
    that round, [1 + length l], is at most [INT_MAX], [count()] on [a]
    returns that number and changes nothing. *)
Theorem count_is_cycle_length (m : mem) (a : N) (l : list N) (fuel : nat) :
  chain (nodes m) (a :: l) a = true -> a ∉ l -> (length l < fuel)%nat ->
  (Z.of_nat (S (length l)) <= INT_MAX)%Z ->
  count fuel a m = Some (Z.of_nat (S (length l)), m).
Proof.
  destruct m as [ns dl]. cbn [nodes]. intros Hc Ha Hfuel Hmax.
  unfold count.
  rewrite (count_loop_chain ns dl a l a 1%Z fuel Hc Ha Hfuel) by lia.
  do 2 f_equal. lia.
Qed.

Lemma count_is_cycle_length_witness :
  count 4 1 (Mem {[1 := Node 1 3 100; 3 := Node 1 2 100; 2 := Node 1 1 100]} [])
  = Some (3%Z, Mem {[1 := Node 1 3 100; 3 := Node 1 2 100; 2 := Node 1 1 100]} []).
Proof.
  refine (count_is_cycle_length
            (Mem {[1 := Node 1 3 100; 3 := Node 1 2 100; 2 := Node 1 1 100]} [])
            1 [3; 2] 4 _ _ _ _).
  - reflexivity.
  - apply (bool_decide_unpack _). by vm_compute.
  - cbn. lia.
  - vm_compute. discriminate.
Defined.

(** X4: [detach()] on a member [a] of a [Next] cycle of any length returns
    the address [a] holds, makes every handle of the cycle null and its
    own singleton cycle, leaves every other handle as it was and deletes
    nothing.  The [Prev] links play no part. *)
Theorem detach_whole_cycle (m : mem) (a : N) (l : list N) (nd : node) (fuel : nat) :
  chain (nodes m) (a :: l) a = true -> NoDup (a :: l) ->
  nodes m !! a = Some nd -> (length l < fuel)%nat ->
  exists m',
    detach fuel a m = Some (m_pValue nd, m') /\
    deleted m' = deleted m /\
    (forall x, x ∈ a :: l -> nodes m' !! x = Some (Node x x nullptr)) /\
    (forall x, x ∉ a :: l -> nodes m' !! x = nodes m !! x).
Proof.
  destruct m as [ns dl]. cbn [nodes deleted]. intros Hc Hnd Ha Hfuel.
  assert (Hal : a ∉ l) by (by apply NoDup_cons in Hnd as [? _]).
  exists (Mem (nulled (a :: l) ns) dl). split; [|split; [|split]].
  - unfold detach, get_value, load, bind, ret. cbn [nodes]. rewrite Ha.
    by rewrite (detach_loop_chain dl a l ns a fuel Hc Hnd Hal Hfuel).
  - reflexivity.
  - intros x Hx. by apply nulled_lookup_in.
  - intros x Hx. by apply nulled_lookup_out.
Qed.

Lemma detach_whole_cycle_witness :
  exists m',
    detach 4 3 (Mem {[1 := Node 1 3 100; 3 := Node 1 2 100; 2 := Node 1 1 100;
                      7 := Node 7 7 55]} [])
    = Some (100, m') /\
    deleted m' = [] /\
    (forall x, x ∈ [3; 2; 1] -> nodes m' !! x = Some (Node x x nullptr)) /\
    (forall x, x ∉ [3; 2; 1] ->
       nodes m' !! x
       = ({[1 := Node 1 3 100; 3 := Node 1 2 100; 2 := Node 1 1 100;
            7 := Node 7 7 55]} : gmap N node) !! x).
Proof.
  refine (detach_whole_cycle
            (Mem {[1 := Node 1 3 100; 3 := Node 1 2 100; 2 := Node 1 1 100;
                   7 := Node 7 7 55]} [])
            3 [2; 1] (Node 1 2 100) 4 _ _ _ _).
  - reflexivity.
  - apply (bool_decide_unpack _). by vm_compute.
  - reflexivity.
  - cbn. lia.
Defined.

(** X5: [force_delete()] on a member of a [Next] cycle of any length
    deletes the object once, whatever the number of handles sharing it,
    and leaves every handle of the cycle null. *)
Theorem force_delete_whole_cycle (m : mem) (a : N) (l : list N) (nd : node) (fuel : nat) :
  chain (nodes m) (a :: l) a = true -> NoDup (a :: l) ->
  nodes m !! a = Some nd -> m_pValue nd <> nullptr -> (length l < fuel)%nat ->
  exists m',
    force_delete fuel a m = Some (tt, m') /\
    deleted m' = m_pValue nd :: deleted m /\
    (forall x, x ∈ a :: l -> nodes m' !! x = Some (Node x x nullptr)) /\
    (forall x, x ∉ a :: l -> nodes m' !! x = nodes m !! x).
Proof.
  intros Hc Hnd Ha Hv Hfuel.
  destruct (detach_whole_cycle m a l nd fuel Hc Hnd Ha Hfuel)
    as (m1 & Hrun & Hdel & Hin & Hout).
  exists (Mem (nodes m1) (m_pValue nd :: deleted m1)).
  split; [|split; [|split]].
  - unfold force_delete, bind. rewrite Hrun. unfold delete_.
    by rewrite decide_False.
  - cbn [deleted]. by rewrite Hdel.
  - exact Hin.
  - exact Hout.
Qed.

Lemma force_delete_whole_cycle_witness :
  exists m',
    force_delete 4 3 (Mem {[1 := Node 1 3 100; 3 := Node 1 2 100;
                            2 := Node 1 1 100]} [])
    = Some (tt, m') /\
    deleted m' = [100] /\
    (forall x, x ∈ [3; 2; 1] -> nodes m' !! x = Some (Node x x nullptr)) /\
    (forall x, x ∉ [3; 2; 1] ->
       nodes m' !! x
       = ({[1 := Node 1 3 100; 3 := Node 1 2 100; 2 := Node 1 1 100]}
          : gmap N node) !! x).
Proof.
  refine (force_delete_whole_cycle
            (Mem {[1 := Node 1 3 100; 3 := Node 1 2 100; 2 := Node 1 1 100]} [])
            3 [2; 1] (Node 1 2 100) 4 _ _ _ _ _).
  - reflexivity.
  - apply (bool_decide_unpack _). by vm_compute.
  - reflexivity.
  - discriminate.
  - cbn. lia.
Defined.

End LinkedPtrCycles.

(** * Reference bookkeeping of the intrusive pointer *)
Module AutoPtrCalls.
Import AutoPtr AutoPtrFacts.

(** X11: a handle built from a raw address and then destroyed calls
    [release()] on the pointee once and [duplicate()] never; built from
    the null address it calls nothing.  The handle store is as before. *)
Theorem adopt_then_destroy_releases_once (w : world) (this p : N) (c : Z) :
  this <> nullptr -> handles w !! this = None ->
  (ctor_ptr this nullptr ;; dtor this) w = Some (tt, w) /\
  (ctor_default this ;; dtor this) w = Some (tt, w) /\
  (p <> nullptr -> refs w !! p = Some c ->
   (ctor_ptr this p ;; dtor this) w
   = Some (tt, World (handles w) (released p c (refs w)) (Release p :: calls w))).
Proof.
  destruct w as [hs rs cs]. cbn [handles refs calls]. intros Hnn Hfresh.
  assert (Hdel : forall x, delete this (<[this := x]> hs) = hs).
  { intros x. rewrite delete_insert_eq. by apply delete_id. }
  repeat split.
  - ap_run. by rewrite Hdel.
  - ap_run. by rewrite Hdel.
  - intros Hp Hc. unfold released. ap_run. by rewrite Hdel.
Qed.

Lemma adopt_then_destroy_releases_once_witness :
  (ctor_ptr 1 100 ;; dtor 1) (World ∅ {[100 := 1%Z]} [])
  = Some (tt, World ∅ (released 100 1 {[100 := 1%Z]}) [Release 100]).
Proof.
  refine (proj2 (proj2 (adopt_then_destroy_releases_once
                          (World ∅ {[100 := 1%Z]} []) 1 100 1 _ _)) _ _).
  - discriminate.
  - reflexivity.
  - discriminate.
  - reflexivity.
Defined.

(** X12: move construction transfers the address and calls nothing: the
    new handle holds it, the source is null, and destroying the moved-from
    source afterwards calls nothing either. *)
Theorem move_construct_transfers (w : world) (this other p : N) :
  handles w !! other = Some p -> this <> nullptr -> handles w !! this = None ->
  ctor_move this other w
  = Some (tt, World (<[other := nullptr]> (<[this := p]> (handles w)))
                    (refs w) (calls w)) /\
  (ctor_move this other ;; dtor other) w
  = Some (tt, World (<[this := p]> (delete other (handles w)))
                    (refs w) (calls w)).
Proof.
  destruct w as [hs rs cs]. cbn [handles refs calls]. intros Ho Hnn Hfresh.
  assert (Hne : other <> this) by congruence.
  split; ap_run; [reflexivity|].
  do 2 f_equal. f_equal. LinkedPtrFacts.lp_map_eq.
Qed.

Lemma move_construct_transfers_witness :
  ctor_move 2 1 (World {[1 := 100]} {[100 := 1%Z]} [])
  = Some (tt, World (<[1 := nullptr]> (<[2 := 100]> {[1 := 100]}))
                    {[100 := 1%Z]} []) /\
  (ctor_move 2 1 ;; dtor 1) (World {[1 := 100]} {[100 := 1%Z]} [])
  = Some (tt, World (<[2 := 100]> (delete 1 {[1 := 100]})) {[100 := 1%Z]} []).
Proof.
  refine (move_construct_transfers
            (World {[1 := 100]} {[100 := 1%Z]} []) 2 1 100 _ _ _).
  - reflexivity.
  - discriminate.
  - reflexivity.
Defined.

(** X13: the converting copy constructor followed by the destruction of
    the copy is balanced: one [duplicate()], then one [release()], and
    handles and counts are as before. *)
Theorem converting_copy_then_destroy_balanced (w : world) (this other p : N) (c : Z) :
  handles w !! other = Some p -> p <> nullptr ->
  refs w !! p = Some c -> c <> 0%Z ->
  this <> nullptr -> handles w !! this = None ->
  (ctor_conv this other ;; dtor this) w
  = Some (tt, World (handles w) (refs w)
                    (Release p :: Duplicate p :: calls w)).
Proof.
  destruct w as [hs rs cs]. cbn [handles refs calls].
  intros Ho Hp Hc Hc0 Hnn Hfresh.
  ap_run. rewrite decide_False by lia. ap_run.
  rewrite delete_insert_eq, (delete_id hs this Hfresh).
  replace (c + 1 - 1)%Z with c by lia.
  by rewrite (insert_id rs p c Hc).
Qed.

Lemma converting_copy_then_destroy_balanced_witness :
  (ctor_conv 2 1 ;; dtor 2) (World {[1 := 100]} {[100 := 1%Z]} [])
  = Some (tt, World {[1 := 100]} {[100 := 1%Z]} [Release 100; Duplicate 100]).
Proof.
  refine (converting_copy_then_destroy_balanced
            (World {[1 := 100]} {[100 := 1%Z]} []) 2 1 100 1 _ _ _ _ _ _).
  - reflexivity.
  - discriminate.
  - reflexivity.
  - discriminate.
  - discriminate.
  - reflexivity.
Defined.

(** X14: the handle's own [duplicate()] calls the pointee's once and
    returns the address (on a null handle it returns null and calls
    nothing); a handle built from the returned address and destroyed again
    leaves handles and counts as they were. *)
Theorem duplicate_then_adopt_balanced (w : world) (a b p : N) (c : Z) :
  handles w !! a = Some p ->
  (p = nullptr -> duplicate a w = Some (nullptr, w)) /\
  (p <> nullptr -> refs w !! p = Some c ->
   duplicate a w
   = Some (p, World (handles w) (<[p := (c + 1)%Z]> (refs w))
                    (Duplicate p :: calls w)) /\
   (c <> 0%Z -> b <> nullptr -> handles w !! b = None ->
    (q <- duplicate a ;; ctor_ptr b q ;; dtor b) w
    = Some (tt, World (handles w) (refs w)
                      (Release p :: Duplicate p :: calls w)))).
Proof.
  destruct w as [hs rs cs]. cbn [handles refs calls]. intros Ha. split.
  - intros ->. ap_run. reflexivity.
  - intros Hp Hc. split; [ap_run; reflexivity|].
    intros Hc0 Hb Hfresh. ap_run. rewrite decide_False by lia. ap_run.
    rewrite delete_insert_eq, (delete_id hs b Hfresh).
    replace (c + 1 - 1)%Z with c by lia.
    by rewrite (insert_id rs p c Hc).
Qed.

Lemma duplicate_then_adopt_balanced_witness :
  duplicate 1 (World {[1 := 100]} {[100 := 1%Z]} [])
  = Some (100, World {[1 := 100]} (<[100 := 2%Z]> {[100 := 1%Z]}) [Duplicate 100])
  /\
  (q <- duplicate 1 ;; ctor_ptr 2 q ;; dtor 2) (World {[1 := 100]} {[100 := 1%Z]} [])
  = Some (tt, World {[1 := 100]} {[100 := 1%Z]} [Release 100; Duplicate 100]).
Proof.
  pose proof (proj2 (duplicate_then_adopt_balanced
                       (World {[1 := 100]} {[100 := 1%Z]} []) 1 2 100 1 eq_refl))
    as H.
  destruct H as [H1 H2]; [discriminate | reflexivity |].
  split; [exact H1|]. apply H2.
  - discriminate.
  - discriminate.
  - reflexivity.
Defined.

(** X15: [reset()] releases the pointee once (nothing on a null handle)
    and leaves the handle null; a second [reset()] changes nothing, and
    the destructor then makes no call: the reference is never released
    twice. *)
Theorem reset_then_nothing_more (w : world) (this p : N) :
  handles w !! this = Some p -> p = nullptr \/ is_Some (refs w !! p) ->
  exists w',
    reset this w = Some (tt, w') /\
    handles w' !! this = Some nullptr /\
    calls w' = (if decide (p = nullptr) then calls w else Release p :: calls w) /\
    reset this w' = Some (tt, w') /\
    dtor this w'
    = Some (tt, World (delete this (handles w')) (refs w') (calls w')).
Proof.
  destruct w as [hs rs cs]. cbn [handles refs calls]. intros Hh Hp.
  destruct (decide (p = nullptr)) as [-> | Hnn].
  - exists (World hs rs cs).
    repeat split; (ap_run; reflexivity).
  - destruct Hp as [-> | [c Hc]]; [congruence|].
    eexists. split; [ap_run; reflexivity|].
    repeat split; (ap_run; reflexivity).
Qed.

Lemma reset_then_nothing_more_witness :
  exists w',
    reset 1 (World {[1 := 100]} {[100 := 2%Z]} []) = Some (tt, w') /\
    handles w' !! 1 = Some nullptr /\
    calls w' = [Release 100] /\
    reset 1 w' = Some (tt, w') /\
    dtor 1 w' = Some (tt, World (delete 1 (handles w')) (refs w') (calls w')).
Proof.
  refine (reset_then_nothing_more
            (World {[1 := 100]} {[100 := 2%Z]} []) 1 100 _ _).
  - reflexivity.
  - right. exists 2%Z. reflexivity.
Defined.

(** X16: move assignment between two different handles releases what the
    target held (once, nothing for null), hands the source's address to
    the target without any [duplicate()], and leaves the source null; no
    other pointee's count changes. *)
Theorem move_assign_transfers (w : world) (this other old p : N) :
  this <> other ->
  handles w !! this = Some old -> handles w !! other = Some p ->
  old = nullptr \/ is_Some (refs w !! old) ->
  exists w',
    move_assign this other w = Some (tt, w') /\
    handles w' !! this = Some p /\
    handles w' !! other = Some nullptr /\
    calls w' = (if decide (old = nullptr) then calls w else Release old :: calls w) /\
    (forall q, q <> old -> refs w' !! q = refs w !! q).
Proof.
  destruct w as [hs rs cs]. cbn [handles refs calls]. intros Hne Hh Ho Hold.
  destruct (decide (old = nullptr)) as [-> | Hnn].
  - eexists. split; [ap_run; reflexivity|].
    repeat split; (ap_run; reflexivity).
  - destruct Hold as [-> | [co Hco]]; [congruence|].
    destruct (decide ((co - 1)%Z = 0%Z)) as [Hz | Hz];
      (eexists; split; [ap_run; reflexivity|]);
      (split; [ap_run; reflexivity|]); (split; [ap_run; reflexivity|]);
      (split; [ap_run; reflexivity|]); intros q Hq; ap_run; reflexivity.
Qed.

Lemma move_assign_transfers_witness :
  exists w',
    move_assign 1 2 (World {[1 := 100; 2 := 200]} {[100 := 1%Z; 200 := 1%Z]} [])
    = Some (tt, w') /\
    handles w' !! 1 = Some 200 /\
    handles w' !! 2 = Some nullptr /\
    calls w' = [Release 100] /\
    (forall q, q <> 100 ->
       refs w' !! q = ({[100 := 1%Z; 200 := 1%Z]} : gmap N Z) !! q).
Proof.
  refine (move_assign_transfers
            (World {[1 := 100; 2 := 200]} {[100 := 1%Z; 200 := 1%Z]} [])
            1 2 100 200 _ _ _ _).
  - discriminate.
  - reflexivity.
  - reflexivity.
  - right. exists 1%Z. reflexivity.
Defined.

(** X17: copy assignment between two different handles that hold
    different addresses releases the target's old pointee once (nothing
    for null) and then duplicates the source's pointee once: the target
    holds the source's address, the source is unchanged and the new
    pointee's count is one higher. *)
Theorem copy_assign_rebalances (w : world) (this other old p : N) (c : Z) :
  other <> this ->
  handles w !! this = Some old -> handles w !! other = Some p ->
  p <> nullptr -> p <> old -> refs w !! p = Some c ->
  old = nullptr \/ is_Some (refs w !! old) ->
  exists w',
    assign this other w = Some (tt, w') /\
    handles w' !! this = Some p /\
    handles w' !! other = Some p /\
    refs w' !! p = Some (c + 1)%Z /\
    calls w'
    = Duplicate p :: (if decide (old = nullptr) then calls w
                      else Release old :: calls w).
Proof.
  destruct w as [hs rs cs]. cbn [handles refs calls].
  intros Hne Hh Ho Hp Hpo Hc Hold.
  assert (Hne' : this <> other) by congruence.
  assert (Hop : old <> p) by congruence.
  destruct (decide (old = nullptr)) as [-> | Hnn].
  - eexists. split; [ap_run; reflexivity|].
    repeat split; (ap_run; reflexivity).
  - destruct Hold as [-> | [co Hco]]; [congruence|].
    destruct (decide ((co - 1)%Z = 0%Z)) as [Hz | Hz];
      (eexists; split; [ap_run; reflexivity|]);
      repeat split; (ap_run; reflexivity).
Qed.

Lemma copy_assign_rebalances_witness :
  exists w',
    assign 1 2 (World {[1 := 100; 2 := 200]} {[100 := 1%Z; 200 := 1%Z]} [])
    = Some (tt, w') /\
    handles w' !! 1 = Some 200 /\
    handles w' !! 2 = Some 200 /\
    refs w' !! 200 = Some 2%Z /\
    calls w' = [Duplicate 200; Release 100].
Proof.
  refine (copy_assign_rebalances
            (World {[1 := 100; 2 := 200]} {[100 := 1%Z; 200 := 1%Z]} [])
            1 2 100 200 1 _ _ _ _ _ _ _).
  - discriminate.
  - reflexivity.
  - reflexivity.
  - discriminate.
  - discriminate.
  - reflexivity.
  - right. exists 1%Z. reflexivity.
Defined.

(** X18: [swap] exchanges the addresses of two handles without any
    pointee call; swapping twice, or swapping a handle with itself, gives
    back the state it started from. *)
Theorem swap_exchanges (w : world) (a b p q : N) :
  handles w !! a = Some p -> handles w !! b = Some q ->
  swap a b w
  = Some (tt, World (<[b := p]> (<[a := q]> (handles w))) (refs w) (calls w)) /\
  (swap a b ;; swap a b) w = Some (tt, w) /\
  swap a a w = Some (tt, w).
Proof.
  destruct w as [hs rs cs]. cbn [handles refs calls]. intros Ha Hb.
  assert (Hself : swap a a (World hs rs cs) = Some (tt, World hs rs cs)).
  { unfold swap. ap_run. by rewrite (insert_id hs a p Ha). }
  destruct (decide (a = b)) as [<- | Hne].
  - assert (q = p) as -> by congruence.
    split; [|split; [|exact Hself]].
    + rewrite Hself. by rewrite insert_insert_eq, (insert_id hs a p Ha).
    + unfold bind. rewrite Hself. exact Hself.
  - split; [unfold swap; ap_run; reflexivity|]. split; [|exact Hself].
    unfold swap. ap_run. do 2 f_equal. f_equal. LinkedPtrFacts.lp_map_eq.
Qed.

Lemma swap_exchanges_witness :
  swap 1 2 (World {[1 := 100; 2 := 200]} ∅ [])
  = Some (tt, World (<[2 := 100]> (<[1 := 200]> {[1 := 100; 2 := 200]})) ∅ []) /\
  (swap 1 2 ;; swap 1 2) (World {[1 := 100; 2 := 200]} ∅ [])
  = Some (tt, World {[1 := 100; 2 := 200]} ∅ []) /\
  swap 1 1 (World {[1 := 100; 2 := 200]} ∅ [])
  = Some (tt, World {[1 := 100; 2 := 200]} ∅ []).
Proof.
  refine (swap_exchanges (World {[1 := 100; 2 := 200]} ∅ []) 1 2 100 200 _ _).
  - reflexivity.
  - reflexivity.
Defined.

(** X20: [make_auto] gives a handle that owns a new pointee with count 1
    and calls nothing; destroying that handle releases the pointee once,
    which destroys it, and the state is as before but for that one
    call. *)
Theorem make_auto_then_destroy (w : world) (this p : N) :
  this <> nullptr -> handles w !! this = None ->
  p <> nullptr -> refs w !! p = None ->
  make_auto this p w
  = Some (tt, World (<[this := p]> (handles w)) (<[p := 1%Z]> (refs w)) (calls w)) /\
  (make_auto this p ;; dtor this) w
  = Some (tt, World (handles w) (refs w) (Release p :: calls w)).
Proof.
  destruct w as [hs rs cs]. cbn [handles refs calls]. intros Hnn Hfresh Hp Hnew.
  unfold make_auto, new_pointee. split; ap_run; [reflexivity|].
  rewrite delete_insert_eq, (delete_id hs this Hfresh).
  rewrite delete_insert_eq, (delete_id rs p Hnew). reflexivity.
Qed.

Lemma make_auto_then_destroy_witness :
  make_auto 1 100 (World ∅ ∅ [])
  = Some (tt, World (<[1 := 100]> ∅) (<[100 := 1%Z]> ∅) []) /\
  (make_auto 1 100 ;; dtor 1) (World ∅ ∅ []) = Some (tt, World ∅ ∅ [Release 100]).
Proof.
  refine (make_auto_then_destroy (World ∅ ∅ []) 1 100 _ _ _ _).
  - discriminate.
  - reflexivity.
  - discriminate.
  - reflexivity.
Defined.

(** X21: assigning a raw address other than the one held releases the old
    pointee once (nothing for null) and adopts the new address without any
    [duplicate()]: the handle takes over the caller's reference.
    [reset(p, false)] does exactly the same. *)
Theorem pointer_assign_adopts (w : world) (this old p : N) :
  handles w !! this = Some old -> p <> old ->
  old = nullptr \/ is_Some (refs w !! old) ->
  assign_shared this p false w = assign_ptr this p w /\
  exists w',
    assign_ptr this p w = Some (tt, w') /\
    handles w' !! this = Some p /\
    calls w' = (if decide (old = nullptr) then calls w else Release old :: calls w) /\
    (forall q, q <> old -> refs w' !! q = refs w !! q).
Proof.
  destruct w as [hs rs cs]. cbn [handles refs calls]. intros Hh Hne Hold.
  assert (Hne' : old <> p) by congruence.
  destruct (decide (old = nullptr)) as [-> | Hnn].
  - split; [ap_run; reflexivity|].
    eexists. split; [ap_run; reflexivity|].
    repeat split; (ap_run; reflexivity).
  - destruct Hold as [-> | [co Hco]]; [congruence|].
    destruct (decide ((co - 1)%Z = 0%Z)) as [Hz | Hz];
      (split; [ap_run; reflexivity|]);
      (eexists; split; [ap_run; reflexivity|]);
      (split; [ap_run; reflexivity|]); (split; [ap_run; reflexivity|]);
      intros q Hq; ap_run; reflexivity.
Qed.

Lemma pointer_assign_adopts_witness :
  assign_shared 1 200 false (World {[1 := 100]} {[100 := 1%Z; 200 := 1%Z]} [])
  = assign_ptr 1 200 (World {[1 := 100]} {[100 := 1%Z; 200 := 1%Z]} []) /\
  exists w',
    assign_ptr 1 200 (World {[1 := 100]} {[100 := 1%Z; 200 := 1%Z]} [])
    = Some (tt, w') /\
    handles w' !! 1 = Some 200 /\
    calls w' = [Release 100] /\
    (forall q, q <> 100 ->
       refs w' !! q = ({[100 := 1%Z; 200 := 1%Z]} : gmap N Z) !! q).
Proof.
  refine (pointer_assign_adopts
            (World {[1 := 100]} {[100 := 1%Z; 200 := 1%Z]} []) 1 100 200 _ _ _).
  - reflexivity.
  - discriminate.
  - right. exists 1%Z. reflexivity.
Defined.

End AutoPtrCalls.
